(** * graceful: graceful shutdown for an [http.Server]

    A shallow embedding of [graceful.go].  [Server.Serve] starts two
    goroutines (the connection tracker of lines 155-180 and the shutdown
    watcher of lines 193-206) and then runs the engine's serve loop; the
    engine reports connection state changes through the [ConnState] hook
    installed at lines 139-150, on goroutines of its own.  All of them talk
    over unbuffered channels.

    The embedding keeps every goroutine's program counter and local
    variables in one [state] record and gives one [step] per atomic action:
    a channel rendezvous (sender and receiver move together), a channel
    close, or one statement of a goroutine.  A schedule is a list of
    actions; [run] plays it.  The engine, the timer behind [time.After],
    the signal source and the caller's use of [Cancel] are the environment:
    their actions are enabled whenever Go allows them.  The engine may
    report any state of any connection at any time, each report on a
    goroutine of its own, and its serve loop may return at any time with
    any error; the timer may fire at any moment while [Serve] is at the
    [select] of line 220; signals arrive as sends on the signal channel,
    which is open when [Serve] starts; [Cancel] fires by a send or by the
    caller closing it.

    [ListenAndServeTLS] (lines 92-122) is sequential and is embedded as a
    function over the results of the library calls it makes. *)

From stdpp Require Import base gmap sets list strings.
From Stdlib Require Import ZArith Lia.

Open Scope Z_scope.

Set Warnings "-clear-no-such-hyp".

(** ** Data *)

(** [net.Conn]: used by the package as a map key only. *)
Definition Conn := nat.

(** [http.ConnState]. *)
Inductive HttpConnState :=
| StateNew
| StateActive
| StateIdle
| StateHijacked
| StateClosed.

(** A Go [error] value; [None] is [nil]. *)
Definition error := option string.

(** Identity of a [chan struct{}] handed around as a value (the [done]
    channel travels over [stop]). *)
Definition Chan := nat.

Global Instance HttpConnState_eq_dec : EqDecision HttpConnState.
Proof. solve_decision. Defined.

(** What the package does to the outside world, in the order it happens.
    [EvConnClose] keeps what [k.Close()] returned. *)
Inductive event :=
| EvSignalNotify
| EvSignalStop
| EvCloseSig
| EvKeepAlivesOff
| EvListenerClose
| EvConnClose (k : Conn) (r : error)
| EvObserver (conn : Conn) (st : HttpConnState).

Global Instance event_eq_dec : EqDecision event.
Proof. solve_decision. Defined.

(** [tls.Certificate], opaque here. *)
Definition Certificate := string.

(** [tls.Config]: the two fields [ListenAndServeTLS] writes, and one it
    only copies.  A nil slice is [None]. *)
Record tls_Config := {
  NextProtos : option (list string);
  Certificates : list Certificate;
  ServerName : string
}.

(** [http.Server]: the fields the package reads. *)
Record http_Server := {
  Addr : string;
  TLSConfig : option tls_Config
}.

(** [Server].  [ConnState], [Signal] and [Cancel] are nilable in Go; the
    channel contents live in [state], the record only says whether the
    field is non-nil.  [Timeout] is a [time.Duration], a signed count of
    nanoseconds. *)
Record Server := {
  Timeout : Z;
  ConnState : bool;
  Signal : bool;
  Cancel : bool;
  embedded : http_Server
}.

(** ** The connection tracker (lines 155-180) *)

(** The goroutine's variables [done] and [connections]. *)
Record tracker_vars := {
  done : option Chan;
  connections : gset Conn
}.

(** Where the goroutine is: blocked in the [select] at the head of the
    loop, blocked in [done <- struct{}{}] (lines 165 and 170, followed by
    [return]), or returned. *)
Inductive tracker :=
| TSelect (v : tracker_vars)
| TSignal (d : Chan)
| TReturned.

(** The four cases of the [select]. *)
Inductive tracker_msg :=
| MsgAdd (conn : Conn)
| MsgRemove (conn : Conn)
| MsgStop (d : Chan)
| MsgKill.

Definition tracker_add (v : tracker_vars) (conn : Conn) : tracker :=
  TSelect {| done := done v; connections := {[conn]} ∪ connections v |}.

Definition tracker_remove (v : tracker_vars) (conn : Conn) : tracker :=
  let connections' := connections v ∖ {[conn]} in
  match done v with
  | Some d =>
      if decide (size connections' = 0%nat) then TSignal d
      else TSelect {| done := Some d; connections := connections' |}
  | None => TSelect {| done := None; connections := connections' |}
  end.

Definition tracker_stop (v : tracker_vars) (d : Chan) : tracker :=
  if decide (size (connections v) = 0%nat) then TSignal d
  else TSelect {| done := Some d; connections := connections v |}.

(** [for k := range connections { k.Close() }]: every key once, the value
    [Close] returns is dropped by the program and kept in the event only. *)
Definition tracker_kill (Close : Conn → error) (v : tracker_vars) : list event :=
  (λ k, EvConnClose k (Close k)) <$> elements (connections v).

(** One iteration of the loop body on a received message: the next
    control state and the calls made. *)
Definition tracker_recv (Close : Conn → error) (v : tracker_vars)
    (m : tracker_msg) : tracker * list event :=
  match m with
  | MsgAdd conn => (tracker_add v conn, [])
  | MsgRemove conn => (tracker_remove v conn, [])
  | MsgStop d => (tracker_stop v d, [])
  | MsgKill => (TReturned, tracker_kill Close v)
  end.

(** ** The other goroutines *)

(** [Serve] itself, from line 209 on.  [err] is what the engine's serve
    loop returned. *)
Inductive main_pc :=
| MServing
| MCloseStopListener (err : error)
| MSendStop (err : error)
| MWait (err : error)
| MSendKill (err : error)
| MReturned (err : error).

(** The watcher of lines 193-206. *)
Inductive watcher_pc :=
| WSelect
| WSignalStop
| WCloseSig
| WKeepAlives
| WListenerClose
| WDone
| WPanic.

(** One call of the hook of lines 139-150: at the [switch], at the
    [if hook := srv.ConnState], or returned. *)
Inductive hook_pc := HSwitch | HObserver | HReturned.

Record hook_call := {
  hconn : Conn;
  hstate : HttpConnState;
  hpc : hook_pc
}.

Global Instance main_pc_eq_dec : EqDecision main_pc.
Proof. solve_decision. Defined.
Global Instance watcher_pc_eq_dec : EqDecision watcher_pc.
Proof. solve_decision. Defined.
Global Instance hook_pc_eq_dec : EqDecision hook_pc.
Proof. solve_decision. Defined.

(** The cases of the watcher's [select]. *)
Inductive source := SrcStopListener | SrcSig | SrcCancel.

Record state := {
  main : main_pc;
  trk : tracker;
  watcher : watcher_pc;
  hooks : list hook_call;
  sig_pending : nat;
  sig_closed : bool;
  cancel_pending : nat;
  cancel_closed : bool;
  stopListener_closed : bool;
  keepAlives : bool;
  log : list event
}.

Definition set_main (m : main_pc) (s : state) : state :=
  {| main := m; trk := trk s; watcher := watcher s; hooks := hooks s;
     sig_pending := sig_pending s; sig_closed := sig_closed s;
     cancel_pending := cancel_pending s; cancel_closed := cancel_closed s;
     stopListener_closed := stopListener_closed s;
     keepAlives := keepAlives s; log := log s |}.

Definition set_trk (t : tracker) (s : state) : state :=
  {| main := main s; trk := t; watcher := watcher s; hooks := hooks s;
     sig_pending := sig_pending s; sig_closed := sig_closed s;
     cancel_pending := cancel_pending s; cancel_closed := cancel_closed s;
     stopListener_closed := stopListener_closed s;
     keepAlives := keepAlives s; log := log s |}.

Definition set_watcher (w : watcher_pc) (s : state) : state :=
  {| main := main s; trk := trk s; watcher := w; hooks := hooks s;
     sig_pending := sig_pending s; sig_closed := sig_closed s;
     cancel_pending := cancel_pending s; cancel_closed := cancel_closed s;
     stopListener_closed := stopListener_closed s;
     keepAlives := keepAlives s; log := log s |}.

Definition set_hooks (h : list hook_call) (s : state) : state :=
  {| main := main s; trk := trk s; watcher := watcher s; hooks := h;
     sig_pending := sig_pending s; sig_closed := sig_closed s;
     cancel_pending := cancel_pending s; cancel_closed := cancel_closed s;
     stopListener_closed := stopListener_closed s;
     keepAlives := keepAlives s; log := log s |}.

Definition set_sig (n : nat) (c : bool) (s : state) : state :=
  {| main := main s; trk := trk s; watcher := watcher s; hooks := hooks s;
     sig_pending := n; sig_closed := c;
     cancel_pending := cancel_pending s; cancel_closed := cancel_closed s;
     stopListener_closed := stopListener_closed s;
     keepAlives := keepAlives s; log := log s |}.

Definition set_cancel (n : nat) (c : bool) (s : state) : state :=
  {| main := main s; trk := trk s; watcher := watcher s; hooks := hooks s;
     sig_pending := sig_pending s; sig_closed := sig_closed s;
     cancel_pending := n; cancel_closed := c;
     stopListener_closed := stopListener_closed s;
     keepAlives := keepAlives s; log := log s |}.

Definition set_stopListener_closed (s : state) : state :=
  {| main := main s; trk := trk s; watcher := watcher s; hooks := hooks s;
     sig_pending := sig_pending s; sig_closed := sig_closed s;
     cancel_pending := cancel_pending s; cancel_closed := cancel_closed s;
     stopListener_closed := true;
     keepAlives := keepAlives s; log := log s |}.

Definition set_keepAlives (b : bool) (s : state) : state :=
  {| main := main s; trk := trk s; watcher := watcher s; hooks := hooks s;
     sig_pending := sig_pending s; sig_closed := sig_closed s;
     cancel_pending := cancel_pending s; cancel_closed := cancel_closed s;
     stopListener_closed := stopListener_closed s;
     keepAlives := b; log := log s |}.

Definition emit (evs : list event) (s : state) : state :=
  {| main := main s; trk := trk s; watcher := watcher s; hooks := hooks s;
     sig_pending := sig_pending s; sig_closed := sig_closed s;
     cancel_pending := cancel_pending s; cancel_closed := cancel_closed s;
     stopListener_closed := stopListener_closed s;
     keepAlives := keepAlives s; log := log s ++ evs |}.

(** ** [Serve], lines 134-206: what is set up before the serve loop *)

(** Lines 182-189: [sig] is [srv.Signal], or a fresh channel when neither
    [Signal] nor [Cancel] is given. *)
Definition sig_default (srv : Server) : bool :=
  negb (Signal srv) && negb (Cancel srv).

Definition sig_in_use (srv : Server) : bool :=
  Signal srv || sig_default srv.

(** The [done] channel [Serve] makes at line 216. *)
Definition main_done : Chan := 0%nat.

(** The state when [srv.Server.Serve(listener)] is entered: both
    goroutines are at their [select], every channel is open and empty. *)
Definition Serve_init (srv : Server) : state :=
  {| main := MServing;
     trk := TSelect {| done := None; connections := ∅ |};
     watcher := WSelect;
     hooks := [];
     sig_pending := 0; sig_closed := false;
     cancel_pending := 0; cancel_closed := false;
     stopListener_closed := false;
     keepAlives := true;
     log := if sig_default srv then [EvSignalNotify] else [] |}.

(** ** Actions *)

(** - [AEvent conn st]: the engine calls [srv.Server.ConnState(conn, st)];
      the call is the next entry of [hooks].
    - [AHookForward i]: hook call [i] gets through its [switch]: its send
      on [add] or [remove] is received by the tracker, or no case applies.
    - [AHookObserve i]: hook call [i] runs lines 147-149 and returns.
    - [AServeReturn err]: [srv.Server.Serve(listener)] returns [err].
    - [ACloseStopListener]: line 213.
    - [AStop]: line 217, [stop <- done] received by the tracker.
    - [ADone]: the tracker's [done <- struct{}{}] received by [Serve].
    - [ATimer]: the channel of [time.After(srv.Timeout)] delivers.
    - [AKill]: line 223, [kill <- struct{}{}] received by the tracker.
    - [AWake src]: the watcher's [select] takes the case of [src].
    - [AWatcher]: the watcher runs its next statement.
    - [ASignal], [ACancelSend]: a value is offered on [sig], on [cancel].
    - [ACancelClose]: the caller closes [Cancel]. *)
Inductive action :=
| AEvent (conn : Conn) (st : HttpConnState)
| AHookForward (i : nat)
| AHookObserve (i : nat)
| AServeReturn (err : error)
| ACloseStopListener
| AStop
| ADone
| ATimer
| AKill
| AWake (src : source)
| AWatcher
| ASignal
| ACancelSend
| ACancelClose.

Global Instance source_eq_dec : EqDecision source.
Proof. solve_decision. Defined.
Global Instance action_eq_dec : EqDecision action.
Proof. solve_decision. Defined.

(** The channel the hook's [switch] sends on, lines 140-145: [add] for
    [StateActive], [remove] for [StateClosed] and [StateIdle], no send for
    the other states. *)
Definition hook_forward (conn : Conn) (st : HttpConnState) : option tracker_msg :=
  match st with
  | StateActive => Some (MsgAdd conn)
  | StateClosed | StateIdle => Some (MsgRemove conn)
  | StateNew | StateHijacked => None
  end.

(** Lines 147-149: the caller's observer, when there is one, gets the
    hook's own arguments. *)
Definition hook_observe (srv : Server) (conn : Conn) (st : HttpConnState) : list event :=
  if ConnState srv then [EvObserver conn st] else [].

(** A receive from a channel with [n] values waiting that may be closed:
    [Some n'] when it can proceed at once, with [n'] values left. *)
Definition chan_recv (n : nat) (closed : bool) : option nat :=
  match n with
  | S n' => Some n'
  | O => if closed then Some O else None
  end.

(** Lines 200-203: after its [select] the watcher tears the signal channel
    down when [sig != nil]. *)
Definition watcher_after_select (srv : Server) : watcher_pc :=
  if sig_in_use srv then WSignalStop else WKeepAlives.

Section Step.
Context (srv : Server) (Close : Conn → error).

(** The watcher's [select], lines 194-198.  A nil channel is never
    ready. *)
Definition watcher_wake (src : source) (s : state) : option state :=
  match watcher s with
  | WSelect =>
      match src with
      | SrcStopListener =>
          if stopListener_closed s
          then Some (set_watcher (watcher_after_select srv) s)
          else None
      | SrcSig =>
          if sig_in_use srv then
            n ← chan_recv (sig_pending s) (sig_closed s);
            Some (set_watcher (watcher_after_select srv)
                    (set_sig n (sig_closed s) s))
          else None
      | SrcCancel =>
          if Cancel srv then
            n ← chan_recv (cancel_pending s) (cancel_closed s);
            Some (set_watcher (watcher_after_select srv)
                    (set_cancel n (cancel_closed s) s))
          else None
      end
  | _ => None
  end.

(** Lines 200-205, one statement at a time.  Closing a closed channel
    panics. *)
Definition watcher_step (s : state) : option state :=
  match watcher s with
  | WSignalStop => Some (set_watcher WCloseSig (emit [EvSignalStop] s))
  | WCloseSig =>
      if sig_closed s then Some (set_watcher WPanic s)
      else Some (set_watcher WKeepAlives
                   (emit [EvCloseSig] (set_sig (sig_pending s) true s)))
  | WKeepAlives =>
      Some (set_watcher WListenerClose
              (emit [EvKeepAlivesOff] (set_keepAlives false s)))
  | WListenerClose => Some (set_watcher WDone (emit [EvListenerClose] s))
  | WSelect | WDone | WPanic => None
  end.

(** The hook's [switch]: a send on [add] or [remove] needs the tracker
    in its [select]; the other states fall through. *)
Definition hook_forward_step (i : nat) (s : state) : option state :=
  h ← hooks s !! i;
  match hpc h with
  | HSwitch =>
      let h' := {| hconn := hconn h; hstate := hstate h; hpc := HObserver |} in
      match hook_forward (hconn h) (hstate h) with
      | Some m =>
          match trk s with
          | TSelect v =>
              Some (set_hooks (<[i := h']> (hooks s))
                      (set_trk (tracker_recv Close v m).1 s))
          | _ => None
          end
      | None => Some (set_hooks (<[i := h']> (hooks s)) s)
      end
  | _ => None
  end.

Definition hook_observe_step (i : nat) (s : state) : option state :=
  h ← hooks s !! i;
  match hpc h with
  | HObserver =>
      let h' := {| hconn := hconn h; hstate := hstate h; hpc := HReturned |} in
      Some (set_hooks (<[i := h']> (hooks s))
              (emit (hook_observe srv (hconn h) (hstate h)) s))
  | _ => None
  end.

Definition step (s : state) (a : action) : option state :=
  match a with
  | AEvent conn st =>
      Some (set_hooks (hooks s ++ [{| hconn := conn; hstate := st; hpc := HSwitch |}]) s)
  | AHookForward i => hook_forward_step i s
  | AHookObserve i => hook_observe_step i s
  | AServeReturn err =>
      match main s with
      | MServing => Some (set_main (MCloseStopListener err) s)
      | _ => None
      end
  | ACloseStopListener =>
      match main s with
      | MCloseStopListener err =>
          Some (set_main (MSendStop err) (set_stopListener_closed s))
      | _ => None
      end
  | AStop =>
      match main s, trk s with
      | MSendStop err, TSelect v =>
          Some (set_main (MWait err)
                  (set_trk (tracker_recv Close v (MsgStop main_done)).1 s))
      | _, _ => None
      end
  | ADone =>
      match main s, trk s with
      | MWait err, TSignal d =>
          if decide (d = main_done)
          then Some (set_main (MReturned err) (set_trk TReturned s))
          else None
      | _, _ => None
      end
  | ATimer =>
      match main s with
      | MWait err =>
          if decide (0 < Timeout srv) then Some (set_main (MSendKill err) s)
          else None
      | _ => None
      end
  | AKill =>
      match main s, trk s with
      | MSendKill err, TSelect v =>
          let r := tracker_recv Close v MsgKill in
          Some (set_main (MReturned err) (set_trk r.1 (emit r.2 s)))
      | _, _ => None
      end
  | AWake src => watcher_wake src s
  | AWatcher => watcher_step s
  | ASignal =>
      if sig_in_use srv && negb (sig_closed s)
      then Some (set_sig (S (sig_pending s)) (sig_closed s) s)
      else None
  | ACancelSend =>
      if Cancel srv && negb (cancel_closed s)
      then Some (set_cancel (S (cancel_pending s)) (cancel_closed s) s)
      else None
  | ACancelClose =>
      if Cancel srv && negb (cancel_closed s)
      then Some (set_cancel (cancel_pending s) true s)
      else None
  end.

(** Playing a schedule. *)
Fixpoint run (s : state) (sched : list action) : option state :=
  match sched with
  | [] => Some s
  | a :: sched' => s' ← step s a; run s' sched'
  end.

Definition Serve (sched : list action) : option state :=
  run (Serve_init srv) sched.

End Step.

(** ** [ListenAndServeTLS], lines 92-122 *)

(** [net.Listener] values: what [net.Listen] and [tls.NewListener] build. *)
Inductive Listener :=
| NetListener (network addr : string)
| TLSListener (inner : Listener) (config : tls_Config).

(** The library calls [ListenAndServeTLS] makes, in order. *)
Inductive tls_call :=
| CallLoadX509KeyPair (certFile keyFile : string)
| CallListen (network addr : string)
| CallServe (srv : Server) (l : Listener).

(** [&tls.Config{}]. *)
Definition tls_Config_zero : tls_Config :=
  {| NextProtos := None; Certificates := []; ServerName := "" |}.

(** Lines 100-106. *)
Definition tls_config_of (server : http_Server) : tls_Config :=
  let config :=
    match TLSConfig server with
    | Some c => c
    | None => tls_Config_zero
    end in
  match NextProtos config with
  | None =>
      {| NextProtos := Some ["http/1.1"%string];
         Certificates := Certificates config;
         ServerName := ServerName config |}
  | Some _ => config
  end.

Section TLS.
(** [tls.LoadX509KeyPair], [net.Listen] and the core [Serve], by their
    results. *)
Context (LoadX509KeyPair : string → string → Certificate * error)
        (Listen : string → string → error)
        (ServeCore : Server → Listener → error).

Definition ListenAndServeTLS (server : http_Server) (certFile keyFile : string)
    (timeout : Z) : error * list tls_call :=
  let srv := {| Timeout := timeout; ConnState := false; Signal := false;
                Cancel := false; embedded := server |} in
  let addr := if decide (Addr server = ""%string) then ":https"%string
              else Addr server in
  let config := tls_config_of server in
  let '(cert, err) := LoadX509KeyPair certFile keyFile in
  let config := {| NextProtos := NextProtos config;
                   Certificates := [cert];
                   ServerName := ServerName config |} in
  match err with
  | Some e => (Some e, [CallLoadX509KeyPair certFile keyFile])
  | None =>
      match Listen "tcp" addr with
      | Some e =>
          (Some e, [CallLoadX509KeyPair certFile keyFile; CallListen "tcp" addr])
      | None =>
          let tlsListener := TLSListener (NetListener "tcp" addr) config in
          (ServeCore srv tlsListener,
           [CallLoadX509KeyPair certFile keyFile; CallListen "tcp" addr;
            CallServe srv tlsListener])
      end
  end.
End TLS.

(** ** Vocabulary for the statements *)

(** How often [e] occurs in a log. *)
Definition count_ev (e : event) (l : list event) : nat :=
  length (filter (λ x, x = e) l).

(** The calls on the signal channel, the listener and the keep-alive
    switch: the watcher's teardown. *)
Definition is_teardown (e : event) : bool :=
  match e with
  | EvSignalStop | EvCloseSig | EvKeepAlivesOff | EvListenerClose => true
  | _ => false
  end.

Definition is_sig_ev (e : event) : bool :=
  match e with
  | EvSignalStop | EvCloseSig => true
  | _ => false
  end.

Definition is_conn_close (e : event) : bool :=
  match e with
  | EvConnClose _ _ => true
  | _ => false
  end.

(** The teardown the watcher has performed once it is at [w]. *)
Definition teardown_upto (srv : Server) (w : watcher_pc) : list event :=
  let sigs := if sig_in_use srv then [EvSignalStop; EvCloseSig] else [] in
  match w with
  | WSelect | WSignalStop | WPanic => []
  | WCloseSig => [EvSignalStop]
  | WKeepAlives => sigs
  | WListenerClose => sigs ++ [EvKeepAlivesOff]
  | WDone => sigs ++ [EvKeepAlivesOff; EvListenerClose]
  end.

(** Statements the watcher still has to run. *)
Definition watcher_rank (w : watcher_pc) : nat :=
  match w with
  | WSelect => 5
  | WSignalStop => 4
  | WCloseSig => 3
  | WKeepAlives => 2
  | WListenerClose => 1
  | WDone | WPanic => 0
  end.

(** The watcher's own next action once [stopListener] is closed. *)
Definition watcher_next (w : watcher_pc) : action :=
  match w with
  | WSelect => AWake SrcStopListener
  | _ => AWatcher
  end.

Definition is_watcher_action (a : action) : bool :=
  match a with
  | AWake _ | AWatcher => true
  | _ => false
  end.

(** [srv] with another [Timeout]. *)
Definition with_Timeout (t : Z) (srv : Server) : Server :=
  {| Timeout := t; ConnState := ConnState srv; Signal := Signal srv;
     Cancel := Cancel srv; embedded := embedded srv |}.

(** ** Concrete servers and schedules *)

Definition http_3000 : http_Server := {| Addr := ":3000"; TLSConfig := None |}.

(** [runServer(timeout, _, c, c2)] of the tests, and the server of
    [TestGracefulForwardsConnState]. *)
Definition test_server (timeout : Z) (observer c c2 : bool) : Server :=
  {| Timeout := timeout; ConnState := observer; Signal := c; Cancel := c2;
     embedded := http_3000 |}.

Definition Close_ok : Conn → error := λ _, None.
Definition Close_fails : Conn → error :=
  λ _, Some "use of closed network connection"%string.

(** A state in which [Serve] is at its wait and the tracker offers the
    completion signal. *)
Definition state_waiting (srv : Server) : state :=
  set_main (MWait None)
    (set_trk (TSignal main_done) (set_stopListener_closed (Serve_init srv))).

(** What the log and the signal channel look like, by where the watcher
    is: the teardown calls made so far are exactly those above its program
    counter, in program order; the signal channel is closed exactly when
    the watcher has passed [close(sig)]; and the watcher never closes a
    closed channel. *)
Definition watcher_inv (srv : Server) (s : state) : Prop :=
  filter is_teardown (log s) = teardown_upto srv (watcher s)
  ∧ match watcher s with
    | WSelect => sig_closed s = false ∧ keepAlives s = true
    | WSignalStop | WCloseSig =>
        sig_in_use srv = true ∧ sig_closed s = false ∧ keepAlives s = true
    | WKeepAlives => sig_closed s = sig_in_use srv ∧ keepAlives s = true
    | WListenerClose | WDone =>
        sig_closed s = sig_in_use srv ∧ keepAlives s = false
    | WPanic => False
    end.

Definition is_observer_of (st : HttpConnState) (e : event) : bool :=
  match e with
  | EvObserver _ st' => bool_decide (st' = st)
  | _ => false
  end.

(** The tracker has returned, every call of the hook for state [st] is
    still at its [switch], and the observer has not been called for
    [st]. *)
Definition withheld (st : HttpConnState) (s : state) : Prop :=
  trk s = TReturned
  ∧ Forall (λ h, hstate h = st → hpc h = HSwitch) (hooks s)
  ∧ filter (is_observer_of st) (log s) = [].

(** The schedule of [TestGracefulRunTimesOut] for one connection, with
    an observer installed: the connection becomes active, the interrupt
    arrives and the watcher closes the listener, the serve loop returns,
    the drain request finds the connection still tracked, the timer
    fires, [Kill] closes the connection and the tracker returns; the
    engine then reports the connection closed. *)
Definition kill_schedule : list action :=
  [AEvent 1%nat StateNew; AHookForward 0; AHookObserve 0;
   AEvent 1%nat StateActive; AHookForward 1; AHookObserve 1;
   ASignal; AWake SrcSig; AWatcher; AWatcher; AWatcher; AWatcher;
   AServeReturn (Some "accept: use of closed network connection"%string);
   ACloseStopListener; AStop; ATimer; AKill;
   AEvent 1%nat StateClosed].

(** One connection still active when the drain begins; the timer fires,
    and the engine's [StateClosed] for the connection reaches the tracker
    before [Serve]'s [Kill] does. *)
Definition race_schedule : list action :=
  [AEvent 1%nat StateActive; AHookForward 0; AHookObserve 0;
   AServeReturn None; ACloseStopListener; AStop; ATimer;
   AEvent 1%nat StateClosed; AHookForward 1].

(** ** Generic facts about runs *)

Ltac step_inv H :=
  unfold step, watcher_wake, watcher_step, hook_forward_step,
    hook_observe_step, hook_forward in H;
  repeat (first
    [ progress simplify_option_eq
    | match type of H with
      | context [match ?x with _ => _ end] => destruct x eqn:?
      end
    | match goal with
      | H' : context [match ?x with _ => _ end] |- _ => destruct x eqn:?
      end ]).

Lemma run_app srv Close s sched1 sched2 :
  run srv Close s (sched1 ++ sched2)
  = (run srv Close s sched1 ≫= λ s', run srv Close s' sched2).
Proof.
  revert s. induction sched1 as [|a sched1 IH]; intros s; simpl; [done|].
  destruct (step srv Close s a); simpl; [apply IH | done].
Qed.

Lemma run_snoc srv Close s sched a s' :
  run srv Close s (sched ++ [a]) = Some s' ↔
  ∃ s1, run srv Close s sched = Some s1 ∧ step srv Close s1 a = Some s'.
Proof.
  rewrite run_app. split.
  - destruct (run srv Close s sched) as [s1|] eqn:E; simpl; [|done].
    destruct (step srv Close s1 a) eqn:E1; simpl; [|done].
    intros [= <-]. eauto.
  - intros (s1 & -> & H). simpl. by rewrite H.
Qed.

(** Induction over the states a schedule reaches from the start of the
    serve loop, with the schedule that led there. *)
Lemma Serve_ind srv Close (P : list action → state → Prop) :
  P [] (Serve_init srv) →
  (∀ sched s a s',
      Serve srv Close sched = Some s → P sched s →
      step srv Close s a = Some s' → P (sched ++ [a]) s') →
  ∀ sched s, Serve srv Close sched = Some s → P sched s.
Proof.
  intros H0 HS sched. induction sched as [|a sched IH] using rev_ind; intros s.
  - by intros [= <-].
  - unfold Serve. rewrite run_snoc. intros (s1 & H1 & H2). eauto.
Qed.

(** An invariant of [step] holds along every run. *)
Lemma run_invariant srv Close (P : state → Prop) :
  (∀ s a s', P s → step srv Close s a = Some s' → P s') →
  ∀ sched s s', P s → run srv Close s sched = Some s' → P s'.
Proof.
  intros HS sched. induction sched as [|a sched IH]; intros s s' Hs; simpl.
  - by intros [= <-].
  - destruct (step srv Close s a) as [s1|] eqn:E; simpl; [|done]. eauto.
Qed.

(** ** The drain wait of [Serve], lines 219-227 *)

(** Where [Serve] is tells what has happened: it is past line 209 only
    after the serve loop returned, past line 213 only with [stopListener]
    closed, and past line 217 only after the tracker took the drain
    request. *)
Lemma Serve_main_history srv Close sched s :
  Serve srv Close sched = Some s →
  match main s with
  | MServing => True
  | MCloseStopListener err => AServeReturn err ∈ sched
  | MSendStop err => AServeReturn err ∈ sched ∧ stopListener_closed s = true
  | MWait err | MReturned err =>
      AServeReturn err ∈ sched ∧ AStop ∈ sched ∧ stopListener_closed s = true
  | MSendKill err =>
      AServeReturn err ∈ sched ∧ AStop ∈ sched ∧ ATimer ∈ sched
      ∧ stopListener_closed s = true
  end.
Proof.
  revert sched s. apply Serve_ind; [done|].
  intros sched s a s' _ IH H.
  destruct a; step_inv H; simpl in *;
    repeat match goal with
    | H : main _ = _ |- _ => rewrite H in *
    | H : ?x = main _ |- _ => rewrite <- H in *
    end; set_solver.
Qed.

(** C1: [Serve] is at its wait only after the serve loop has returned
    and the tracker has taken the drain request.  With [Timeout > 0] it
    leaves the wait on the first of the completion signal (it then
    returns the serve loop's error) and the timer (it is then at
    [kill <- struct{}{}], and the only way on from there is to hand
    [Kill] to the tracker in its [select], which closes the tracked
    connections); with [Timeout = 0] the timer is no alternative, nothing
    but the completion signal ends the wait, and no [Kill] can be
    sent. *)
Theorem Serve_drain_wait srv Close sched s err :
  Serve srv Close sched = Some s →
  main s = MWait err →
  (AServeReturn err ∈ sched ∧ AStop ∈ sched)
  ∧ (trk s = TSignal main_done →
     step srv Close s ADone
     = Some (set_main (MReturned err) (set_trk TReturned s)))
  ∧ (0 < Timeout srv →
     step srv Close s ATimer = Some (set_main (MSendKill err) s)
     ∧ (∀ a s', step srv Close s a = Some s' →
          main s' = MWait err
          ∨ (a = ADone ∧ main s' = MReturned err)
          ∨ (a = ATimer ∧ main s' = MSendKill err))
     ∧ (∀ s1 a s', main s1 = MSendKill err →
          step srv Close s1 a = Some s' →
          main s' = MSendKill err
          ∨ (a = AKill ∧ main s' = MReturned err ∧ trk s' = TReturned
             ∧ ∃ v, trk s1 = TSelect v
                    ∧ log s' = log s1 ++ tracker_kill Close v)))
  ∧ (Timeout srv = 0 →
     step srv Close s ATimer = None
     ∧ step srv Close s AKill = None
     ∧ (∀ a s', step srv Close s a = Some s' →
          main s' = MWait err ∨ (a = ADone ∧ main s' = MReturned err))).
Proof.
  intros Hrun Hm. split; [|split; [|split]].
  - pose proof (Serve_main_history _ _ _ _ Hrun) as Hh.
    rewrite Hm in Hh. tauto.
  - intros Ht. simpl. rewrite Hm, Ht. by rewrite decide_True.
  - intros Hpos. split; [|split].
    + simpl. rewrite Hm. by rewrite decide_True.
    + intros a s' H. destruct a; step_inv H; simpl; auto.
    + intros s1 a s' Hm1 H. destruct a; step_inv H; simpl; eauto 10.
  - intros Hz. split; [|split].
    + simpl. rewrite Hm. rewrite decide_False; [done | lia].
    + simpl. by rewrite Hm.
    + intros a s' H. destruct a; step_inv H; simpl; auto; lia.
Qed.

Lemma Serve_drain_wait_witness :
  step (test_server 50 false true false) Close_ok
    (state_waiting (test_server 50 false true false)) ATimer
  = Some (set_main (MSendKill None)
            (state_waiting (test_server 50 false true false)))
  ∧ step (test_server 0 false true false) Close_ok
      (state_waiting (test_server 0 false true false)) ATimer = None
  ∧ step (test_server 0 false true false) Close_ok
      (state_waiting (test_server 0 false true false)) ADone
    = Some (set_main (MReturned None)
              (set_trk TReturned (state_waiting (test_server 0 false true false)))).
Proof.
  pose proof (Serve_drain_wait (test_server 50 false true false) Close_ok
    [AServeReturn None; ACloseStopListener; AStop]
    (state_waiting (test_server 50 false true false)) None
    eq_refl eq_refl) as H50.
  pose proof (Serve_drain_wait (test_server 0 false true false) Close_ok
    [AServeReturn None; ACloseStopListener; AStop]
    (state_waiting (test_server 0 false true false)) None
    eq_refl eq_refl) as H0.
  split; [|split].
  - exact (proj1 (proj1 (proj2 (proj2 H50)) eq_refl)).
  - exact (proj1 (proj2 (proj2 (proj2 H0)) eq_refl)).
  - exact (proj1 (proj2 H0) eq_refl).
Defined.

(** C9: a negative [Timeout] is a [Timeout] of zero: every schedule does
    the same under both, and under either the timer never fires, [Serve]
    never reaches [kill <- struct{}{}], no [Kill] is handed over and no
    connection is closed by the package. *)
Theorem Serve_negative_Timeout srv Close :
  Timeout srv ≤ 0 →
  (∀ sched, Serve srv Close sched = Serve (with_Timeout 0 srv) Close sched)
  ∧ (∀ sched s, Serve srv Close sched = Some s →
       (ATimer ∉ sched) ∧ (AKill ∉ sched)
       ∧ (∀ err, main s ≠ MSendKill err)
       ∧ filter is_conn_close (log s) = []).
Proof.
  intros Hneg.
  assert (Hstep : ∀ s a, step srv Close s a = step (with_Timeout 0 srv) Close s a).
  { intros s a. destruct a; try reflexivity. simpl.
    destruct (main s); try done.
    rewrite !decide_False by (simpl; lia). done. }
  split.
  - intros sched. unfold Serve.
    change (Serve_init (with_Timeout 0 srv)) with (Serve_init srv).
    generalize (Serve_init srv).
    induction sched as [|a sched IH]; intros s; simpl; [done|].
    rewrite <- Hstep. destruct (step srv Close s a); simpl; auto.
  - apply (Serve_ind srv Close (λ sched s,
      (ATimer ∉ sched) ∧ (AKill ∉ sched) ∧ (∀ err, main s ≠ MSendKill err)
      ∧ filter is_conn_close (log s) = [])).
    + repeat split; [set_solver | set_solver | done |].
      simpl. by destruct (sig_default srv).
    + intros sched s a s' _ (H1 & H2 & H3 & H4) H.
      destruct a; step_inv H; simpl in *;
        try (exfalso; lia);
        try (exfalso; by eapply H3);
        (split; [set_solver | split; [set_solver | split]]);
        try done; try congruence;
        rewrite ?filter_app, ?H4; try done.
      unfold hook_observe. by destruct (ConnState srv).
Qed.

Lemma Serve_negative_Timeout_witness :
  Serve (test_server (-7) false true false) Close_ok
    [ASignal; AWake SrcSig; AServeReturn None; ACloseStopListener; AStop]
  = Serve (with_Timeout 0 (test_server (-7) false true false)) Close_ok
    [ASignal; AWake SrcSig; AServeReturn None; ACloseStopListener; AStop].
Proof.
  refine (proj1 (Serve_negative_Timeout
    (test_server (-7) false true false) Close_ok _) _).
  vm_compute. discriminate.
Defined.

(** ** The tracker *)

(** Once the tracker has left its [select] it takes no message: blocked
    in [done <- struct{}{}] it can only complete that send, to [Serve]
    waiting on the same channel, and then it has returned; returned, it
    stays so. *)
Lemma tracker_left_select srv Close s a s' :
  step srv Close s a = Some s' →
  match trk s with
  | TSelect _ => True
  | TSignal d =>
      trk s' = TSignal d ∨ (a = ADone ∧ d = main_done ∧ trk s' = TReturned)
  | TReturned => trk s' = TReturned
  end.
Proof.
  intros H. destruct (trk s) eqn:Et; [done| |];
    destruct a; step_inv H; simpl; auto; congruence.
Qed.

(** Until [Serve] has handed the drain request over, the tracker is in
    its [select] with [done == nil]. *)
Lemma Serve_tracker_before_drain srv Close sched s :
  Serve srv Close sched = Some s →
  match main s with
  | MServing | MCloseStopListener _ | MSendStop _ =>
      ∃ v, trk s = TSelect v ∧ done v = None
  | _ => True
  end.
Proof.
  revert sched s. apply Serve_ind; [simpl; eauto|].
  intros sched s a s' _ IH H.
  destruct a; step_inv H; simpl in *;
    repeat match goal with
    | H : main _ = _ |- _ => rewrite H in *
    | H : ?x = main _ |- _ => rewrite <- H in *
    end; try done;
    destruct IH as (v' & Hv & Hd); simplify_eq; eauto;
    unfold tracker_add, tracker_remove; rewrite ?Hd; simpl; eauto.
Qed.

(** When the engine never reports [StateActive], nothing is ever
    tracked. *)
Lemma Serve_nothing_tracked srv Close sched s :
  Serve srv Close sched = Some s →
  (∀ conn, AEvent conn StateActive ∉ sched) →
  Forall (λ h, hstate h ≠ StateActive) (hooks s)
  ∧ ∀ v, trk s = TSelect v → connections v = ∅.
Proof.
  revert sched s.
  apply (Serve_ind srv Close (λ sched s,
    (∀ conn, AEvent conn StateActive ∉ sched) →
    Forall (λ h, hstate h ≠ StateActive) (hooks s)
    ∧ ∀ v, trk s = TSelect v → connections v = ∅)).
  { intros _. split; [constructor|]. simpl. by intros v [= <-]. }
  intros sched s a s' _ IH H Hno.
  destruct IH as [IHh IHt]; [set_solver|].
  assert (Hins : ∀ i h h', hooks s !! i = Some h → hstate h' = hstate h →
            Forall (λ h, hstate h ≠ StateActive) (<[i:=h']> (hooks s))).
  { intros i h h' Hi Hst. apply Forall_insert; [done|].
    rewrite Hst. by eapply (Forall_lookup_1 _ _ _ _ IHh). }
  destruct a; step_inv H; simpl in *;
    try (split; [by eauto | by eauto]).
  - split; [|done]. apply Forall_app. split; [done|].
    constructor; [|constructor]. simpl. intros ->.
    apply (Hno conn). set_solver.
  - exfalso. by eapply (Forall_lookup_1 _ _ _ _ IHh).
  - split; [by apply Forall_insert|]. intros v' Hv'.
    unfold tracker_remove in Hv'. pose proof (IHt _ eq_refl) as He.
    repeat case_match; simplify_eq; simpl; rewrite He; set_solver.
  - split; [by apply Forall_insert|]. intros v' Hv'.
    unfold tracker_remove in Hv'. pose proof (IHt _ eq_refl) as He.
    repeat case_match; simplify_eq; simpl; rewrite He; set_solver.
  - split; [done|]. intros v' Hv'. unfold tracker_stop in Hv'.
    pose proof (IHt _ eq_refl) as He.
    repeat case_match; simplify_eq; simpl; done.
Qed.

(** C2: on [BeginDrain] with an empty tracked set the tracker goes
    straight to [done <- struct{}{}] on the notifier it just received,
    takes no other message there, and has returned once that send is
    taken; with a non-empty set it keeps the notifier in [done], keeps
    the set and signals nothing.  When nothing was ever tracked, whatever
    [Timeout] is, the drain request puts the tracker at that send and
    [Serve] at its wait, and the handoff that completes the drain and
    lets [Serve] return is enabled at once. *)
Theorem tracker_BeginDrain srv Close :
  (∀ v d, size (connections v) = 0%nat →
     tracker_recv Close v (MsgStop d) = (TSignal d, []))
  ∧ (∀ v d, size (connections v) ≠ 0%nat →
     tracker_recv Close v (MsgStop d)
     = (TSelect {| done := Some d; connections := connections v |}, []))
  ∧ (∀ s d a s', trk s = TSignal d → step srv Close s a = Some s' →
       trk s' = TSignal d ∨ (a = ADone ∧ d = main_done ∧ trk s' = TReturned))
  ∧ (∀ sched s err,
       Serve srv Close sched = Some s →
       (∀ conn, AEvent conn StateActive ∉ sched) →
       main s = MSendStop err →
       ∃ s1 s2,
         step srv Close s AStop = Some s1
         ∧ trk s1 = TSignal main_done ∧ main s1 = MWait err
         ∧ step srv Close s1 ADone = Some s2
         ∧ trk s2 = TReturned ∧ main s2 = MReturned err).
Proof.
  split; [|split; [|split]].
  - intros v d Hv. simpl. unfold tracker_stop. by rewrite decide_True.
  - intros v d Hv. simpl. unfold tracker_stop. by rewrite decide_False.
  - intros s d a s' Ht H. pose proof (tracker_left_select _ _ _ _ _ H) as Hl.
    by rewrite Ht in Hl.
  - intros sched s err Hrun Hno Hm.
    pose proof (Serve_tracker_before_drain _ _ _ _ Hrun) as Hb.
    rewrite Hm in Hb. destruct Hb as (v & Hv & Hd).
    destruct (Serve_nothing_tracked _ _ _ _ Hrun Hno) as [_ He].
    specialize (He v Hv).
    assert (Hs : tracker_stop v main_done = TSignal main_done).
    { unfold tracker_stop. rewrite He. by rewrite decide_True. }
    exists (set_main (MWait err) (set_trk (TSignal main_done) s)),
      (set_main (MReturned err) (set_trk TReturned
         (set_main (MWait err) (set_trk (TSignal main_done) s)))).
    simpl. rewrite Hm, Hv. simpl. rewrite Hs. done.
Qed.

Lemma tracker_BeginDrain_witness :
  ∃ s1 s2,
    step (test_server 50 false true false) Close_ok
      (set_main (MSendStop None)
         (set_stopListener_closed (Serve_init (test_server 50 false true false))))
      AStop = Some s1
    ∧ trk s1 = TSignal main_done ∧ main s1 = MWait None
    ∧ step (test_server 50 false true false) Close_ok s1 ADone = Some s2
    ∧ trk s2 = TReturned ∧ main s2 = MReturned None.
Proof.
  refine (proj2 (proj2 (proj2 (tracker_BeginDrain
    (test_server 50 false true false) Close_ok)))
    [AServeReturn None; ACloseStopListener] _ None _ _ _).
  - reflexivity.
  - intros conn Hin. repeat (apply elem_of_cons in Hin as [Hin|Hin]; [discriminate|]).
    by apply elem_of_nil in Hin.
  - reflexivity.
Defined.

(** C3: [Untrack] takes the handle out of the set (and nothing else);
    with a drain request outstanding and the set empty afterwards the
    tracker goes to [done <- struct{}{}] on the outstanding notifier,
    where it takes no further message and from where it returns once the
    send is taken; with no drain request outstanding it stays in its
    [select] whatever the set is, and in no case does the removal make a
    call. *)
Theorem tracker_Untrack srv Close v conn :
  (tracker_recv Close v (MsgRemove conn)).2 = []
  ∧ (∀ k, k ∈ connections v ∖ {[conn]} ↔ k ∈ connections v ∧ k ≠ conn)
  ∧ (∀ d, done v = Some d → connections v ∖ {[conn]} = ∅ →
       (tracker_recv Close v (MsgRemove conn)).1 = TSignal d)
  ∧ (∀ d, done v = Some d → connections v ∖ {[conn]} ≠ ∅ →
       (tracker_recv Close v (MsgRemove conn)).1
       = TSelect {| done := Some d; connections := connections v ∖ {[conn]} |})
  ∧ (done v = None →
       (tracker_recv Close v (MsgRemove conn)).1
       = TSelect {| done := None; connections := connections v ∖ {[conn]} |})
  ∧ (∀ s d a s', trk s = TSignal d → step srv Close s a = Some s' →
       trk s' = TSignal d ∨ (a = ADone ∧ d = main_done ∧ trk s' = TReturned))
  ∧ (∀ s sched s', trk s = TReturned → run srv Close s sched = Some s' →
       trk s' = TReturned).
Proof.
  split; [done|]. split; [set_solver|].
  split; [|split; [|split; [|split]]].
  - intros d Hd He. simpl. unfold tracker_remove. rewrite Hd.
    rewrite decide_True; [done|]. by rewrite He.
  - intros d Hd Hne. simpl. unfold tracker_remove. rewrite Hd.
    rewrite decide_False; [done|]. intros Hs.
    apply size_empty_iff in Hs. by apply leibniz_equiv in Hs.
  - intros Hd. simpl. unfold tracker_remove. by rewrite Hd.
  - intros s d a s' Ht H. pose proof (tracker_left_select _ _ _ _ _ H) as Hl.
    by rewrite Ht in Hl.
  - intros s sched s' Ht Hr.
    eapply (run_invariant srv Close (λ s, trk s = TReturned));
      [|exact Ht|exact Hr].
    intros s1 a s2 Ht1 H. pose proof (tracker_left_select _ _ _ _ _ H) as Hl.
    by rewrite Ht1 in Hl.
Qed.

Lemma tracker_Untrack_witness :
  (tracker_recv Close_ok {| done := Some main_done; connections := {[7%nat]} |}
     (MsgRemove 7%nat)).1 = TSignal main_done
  ∧ (tracker_recv Close_ok {| done := None; connections := {[7%nat]} |}
       (MsgRemove 7%nat)).1
    = TSelect {| done := None; connections := {[7%nat]} ∖ {[7%nat]} |}.
Proof.
  split.
  - refine (proj1 (proj2 (proj2 (tracker_Untrack
      (test_server 50 false true false) Close_ok
      {| done := Some main_done; connections := {[7%nat]} |} 7%nat)))
      main_done _ _).
    + reflexivity.
    + simpl. set_solver.
  - refine (proj1 (proj2 (proj2 (proj2 (proj2 (tracker_Untrack
      (test_server 50 false true false) Close_ok
      {| done := None; connections := {[7%nat]} |} 7%nat))))) _).
    reflexivity.
Defined.

(** After the tracker has returned nobody sends on [done]. *)
Lemma tracker_returned_no_signal srv Close sched s s' :
  trk s = TReturned → run srv Close s sched = Some s' → ADone ∉ sched.
Proof.
  revert s. induction sched as [|a sched IH]; intros s Ht Hr; [set_solver|].
  simpl in Hr. destruct (step srv Close s a) as [s1|] eqn:E; [|done].
  simpl in Hr. pose proof (tracker_left_select _ _ _ _ _ E) as Hl.
  rewrite Ht in Hl. specialize (IH _ Hl Hr).
  assert (a ≠ ADone).
  { intros ->. simpl in E. rewrite Ht in E. by destruct (main s). }
  set_solver.
Qed.

(** C4: on [Kill] the tracker calls [Close] on every tracked handle, once
    each and on nothing else, makes no other call, and has returned,
    whatever [done] holds; [Serve] then returns the serve loop's error
    whatever the closes returned; nothing is sent on the notifier, then
    or later. *)
Theorem tracker_Kill srv Close v :
  (tracker_recv Close v MsgKill).1 = TReturned
  ∧ (∀ k, k ∈ connections v ↔
          EvConnClose k (Close k) ∈ (tracker_recv Close v MsgKill).2)
  ∧ NoDup (tracker_recv Close v MsgKill).2
  ∧ length (tracker_recv Close v MsgKill).2 = size (connections v)
  ∧ Forall (λ e, is_conn_close e = true) (tracker_recv Close v MsgKill).2
  ∧ (∀ s err, main s = MSendKill err → trk s = TSelect v →
       ∃ s', step srv Close s AKill = Some s'
             ∧ trk s' = TReturned ∧ main s' = MReturned err
             ∧ log s' = log s ++ (tracker_recv Close v MsgKill).2
             ∧ ∀ sched s'', run srv Close s' sched = Some s'' →
                 (ADone ∉ sched) ∧ trk s'' = TReturned).
Proof.
  simpl. unfold tracker_kill. split; [done|].
  split; [|split; [|split; [|split]]].
  - intros k. rewrite list_elem_of_fmap. split.
    + intros Hk. exists k. split; [done|]. by apply elem_of_elements.
    + intros (k' & [= ->] & Hk'). by apply elem_of_elements.
  - apply NoDup_fmap_2; [|apply NoDup_elements].
    by intros k1 k2 [= ->].
  - by rewrite length_fmap.
  - apply Forall_fmap. by apply Forall_true.
  - intros s err Hm Ht.
    exists (set_main (MReturned err) (set_trk TReturned
              (emit ((λ k, EvConnClose k (Close k)) <$> elements (connections v)) s))).
    split; [|split; [done|split; [done|split; [done|]]]].
    + simpl. by rewrite Hm, Ht.
    + intros sched s'' Hr. split.
      * eapply tracker_returned_no_signal; [|exact Hr]. reflexivity.
      * eapply (run_invariant srv Close (λ s, trk s = TReturned));
          [|..|exact Hr]; [|reflexivity].
        intros s1 a s2 Ht1 H.
        pose proof (tracker_left_select _ _ _ _ _ H) as Hl.
        by rewrite Ht1 in Hl.
Qed.

Lemma tracker_Kill_witness :
  ∃ s', step (test_server 50 false true false) Close_fails
          (set_main (MSendKill None)
             (set_trk (TSelect {| done := Some main_done;
                                  connections := {[3%nat; 8%nat]} |})
                (Serve_init (test_server 50 false true false)))) AKill
        = Some s'
        ∧ trk s' = TReturned ∧ main s' = MReturned None.
Proof.
  destruct (proj2 (proj2 (proj2 (proj2 (proj2 (tracker_Kill
    (test_server 50 false true false) Close_fails
    {| done := Some main_done; connections := {[3%nat; 8%nat]} |})))))
    (set_main (MSendKill None)
       (set_trk (TSelect {| done := Some main_done;
                            connections := {[3%nat; 8%nat]} |})
          (Serve_init (test_server 50 false true false))))
    None eq_refl eq_refl) as (s' & H1 & H2 & H3 & _).
  exists s'. auto.
Defined.

(** ** The watcher *)

Lemma filter_teardown_snoc (l : list event) (e : event) :
  filter is_teardown (l ++ [e])
  = filter is_teardown l ++ (if is_teardown e then [e] else []).
Proof.
  rewrite filter_app. f_equal. by destruct e.
Qed.

Lemma filter_teardown_kill Close v (l : list event) :
  filter is_teardown (l ++ tracker_kill Close v) = filter is_teardown l.
Proof.
  rewrite filter_app. unfold tracker_kill.
  induction (elements (connections v)) as [|k ks IH]; simpl.
  - by rewrite app_nil_r.
  - rewrite filter_cons_False; [done|]. simpl. tauto.
Qed.

Lemma filter_teardown_observe srv conn st (l : list event) :
  filter is_teardown (l ++ hook_observe srv conn st) = filter is_teardown l.
Proof.
  unfold hook_observe. destruct (ConnState srv).
  - rewrite filter_teardown_snoc. simpl. by rewrite app_nil_r.
  - by rewrite app_nil_r.
Qed.

Lemma Serve_watcher_inv srv Close sched s :
  Serve srv Close sched = Some s → watcher_inv srv s.
Proof.
  revert sched s. apply Serve_ind.
  { split; [|done]. simpl. by destruct (sig_default srv). }
  intros sched s a s' _ [IHl IHw] H.
  unfold watcher_inv in *.
  destruct a; step_inv H; unfold watcher_after_select; simpl in *;
    rewrite ?filter_teardown_kill, ?filter_teardown_observe,
      ?filter_teardown_snoc;
    repeat match goal with
    | H : watcher _ = _ |- _ => rewrite H in *
    | H : ?x = watcher _ |- _ => rewrite <- H in *
    end; simpl in *;
    try (destruct (sig_in_use srv) eqn:?; simpl in * );
    rewrite ?IHl, ?app_nil_r; simpl;
    intuition (try congruence);
    try match goal with
    | H : sig_in_use srv = _ |- _ => by rewrite H
    end.
Qed.

Lemma count_ev_teardown (e : event) (l : list event) :
  is_teardown e = true →
  count_ev e l = count_ev e (filter is_teardown l).
Proof.
  intros He. unfold count_ev. induction l as [|x l IH]; [done|].
  rewrite !filter_cons.
  destruct (decide (x = e)) as [->|Hne].
  - rewrite decide_True by (by rewrite He).
    rewrite filter_cons, decide_True by done.
    simpl. by rewrite IH.
  - destruct (decide (is_teardown x)); [|done].
    by rewrite filter_cons, decide_False.
Qed.

(** With [stopListener] closed (or the [select] already left) the
    watcher's next statement can run, and running it brings the watcher
    closer to its end without touching [Serve]. *)
Lemma watcher_progress srv Close s :
  watcher_inv srv s →
  (watcher s = WSelect → stopListener_closed s = true) →
  watcher s = WDone
  ∨ ∃ s', step srv Close s (watcher_next (watcher s)) = Some s'
          ∧ (watcher_rank (watcher s') < watcher_rank (watcher s))%nat
          ∧ main s' = main s
          ∧ stopListener_closed s' = stopListener_closed s.
Proof.
  intros [_ Hw] Hstop.
  destruct (watcher s) eqn:Ew; [| | | | |by left|done]; right;
    unfold watcher_next, step, watcher_wake, watcher_step; rewrite Ew.
  - rewrite (Hstop eq_refl). eexists. split; [done|]. simpl.
    unfold watcher_after_select. destruct (sig_in_use srv); simpl; auto with lia.
  - eexists. split; [done|]. simpl. auto.
  - destruct Hw as (_ & -> & _). eexists. split; [done|]. simpl. auto.
  - eexists. split; [done|]. simpl. auto.
  - eexists. split; [done|]. simpl. auto.
Qed.

(** So from there the watcher can run on its own to its end. *)
Lemma watcher_finishes srv Close (n : nat) :
  ∀ sched s,
    Serve srv Close sched = Some s →
    (watcher_rank (watcher s) ≤ n)%nat →
    (watcher s = WSelect → stopListener_closed s = true) →
    ∃ sched' s',
      Forall (λ a, is_watcher_action a = true) sched'
      ∧ (length sched' ≤ n)%nat
      ∧ run srv Close s sched' = Some s'
      ∧ watcher s' = WDone ∧ main s' = main s.
Proof.
  induction n as [|n IH]; intros sched s Hrun Hrank Hstop;
    pose proof (Serve_watcher_inv _ _ _ _ Hrun) as Hinv;
    destruct (watcher_progress srv Close s Hinv Hstop)
      as [Hd|(s1 & H1 & Hlt & Hm & Hsl)].
  - exists [], s. by repeat split.
  - lia.
  - exists [], s. repeat split; auto. simpl. lia.
  - assert (Hrun1 : Serve srv Close (sched ++ [watcher_next (watcher s)]) = Some s1).
    { unfold Serve. apply run_snoc. eauto. }
    destruct (IH _ _ Hrun1) as (sched' & s' & Hf & Hlen & Hr & Hw & Hm').
    + lia.
    + intros Hs1. rewrite Hs1 in Hlt.
      destruct (watcher s); simpl in *; lia.
    + exists (watcher_next (watcher s) :: sched'), s'.
      repeat split.
      * constructor; [by destruct (watcher s)|done].
      * simpl. lia.
      * simpl. by rewrite H1.
      * done.
      * congruence.
Qed.

Lemma filter_sig_ev_teardown (l : list event) :
  filter is_sig_ev l = filter is_sig_ev (filter is_teardown l).
Proof.
  induction l as [|x l IH]; [done|].
  rewrite !filter_cons.
  destruct (decide (is_sig_ev x)) as [Hx|Hx].
  - rewrite decide_True by (by destruct x).
    rewrite filter_cons, decide_True by done. by rewrite IH.
  - destruct (decide (is_teardown x)); [|done].
    by rewrite filter_cons, decide_False.
Qed.

(** Nobody but the watcher makes a teardown call. *)
Lemma teardown_watcher_only srv Close s a s' :
  step srv Close s a = Some s' → is_watcher_action a = false →
  filter is_teardown (log s') = filter is_teardown (log s).
Proof.
  intros H Ha. destruct a; try done; step_inv H; simpl;
    by rewrite ?filter_teardown_kill, ?filter_teardown_observe.
Qed.

(** The claim C5 makes fails where only [Cancel] is supplied: [sig] stays
    nil, the guard of line 200 skips [signal.Stop] and [close(sig)], and
    the watcher ends having closed the listener once and torn no signal
    channel down. *)
Lemma watcher_teardown_cancel_only :
  (λ s, (watcher s, count_ev EvListenerClose (log s),
         count_ev EvSignalStop (log s), count_ev EvCloseSig (log s)))
    <$> Serve (test_server 50 false false true) Close_ok
          [ACancelClose; AWake SrcCancel; AWatcher; AWatcher]
  = Some (WDone, 1%nat, 0%nat, 0%nat).
Proof. reflexivity. Qed.

(** C5, amended: along every schedule the listener is closed, keep-alives
    are disabled, and [signal.Stop] and [close(sig)] are called at most
    once each, by the watcher only; the watcher leaves its [select] once
    (whichever sources are ready, a second wake-up is impossible) and
    never closes a closed channel; having left the [select] it can run to
    its end; and at its end it has closed the listener and disabled
    keep-alives exactly once, and has called [signal.Stop] and
    [close(sig)] exactly once when a signal channel is in use and not at
    all when only [Cancel] was supplied. *)
Theorem watcher_teardown_once srv Close sched s :
  Serve srv Close sched = Some s →
  ((count_ev EvListenerClose (log s) ≤ 1)%nat
   ∧ (count_ev EvKeepAlivesOff (log s) ≤ 1)%nat
   ∧ (count_ev EvSignalStop (log s) ≤ 1)%nat
   ∧ (count_ev EvCloseSig (log s) ≤ 1)%nat)
  ∧ (∀ a s', step srv Close s a = Some s' → is_watcher_action a = false →
       filter is_teardown (log s') = filter is_teardown (log s))
  ∧ (∀ src s', step srv Close s (AWake src) = Some s' →
       watcher s = WSelect ∧ watcher s' = watcher_after_select srv
       ∧ ∀ src', step srv Close s' (AWake src') = None)
  ∧ watcher s ≠ WPanic
  ∧ (watcher s ≠ WSelect →
       ∃ sched' s', Forall (λ a, is_watcher_action a = true) sched'
                    ∧ run srv Close s sched' = Some s' ∧ watcher s' = WDone)
  ∧ (watcher s = WDone →
       count_ev EvListenerClose (log s) = 1%nat
       ∧ count_ev EvKeepAlivesOff (log s) = 1%nat
       ∧ count_ev EvSignalStop (log s) = (if sig_in_use srv then 1 else 0)%nat
       ∧ count_ev EvCloseSig (log s) = (if sig_in_use srv then 1 else 0)%nat).
Proof.
  intros Hrun. pose proof (Serve_watcher_inv _ _ _ _ Hrun) as [Hl Hw].
  split; [|split; [|split; [|split; [|split]]]].
  - rewrite !(count_ev_teardown _ (log s)) by done. rewrite Hl.
    unfold teardown_upto.
    destruct (watcher s), (sig_in_use srv); try done; vm_compute; lia.
  - intros a s'. apply teardown_watcher_only.
  - intros src s' H. unfold step, watcher_wake in H.
    destruct (watcher s) eqn:Ew; try done.
    assert (Hs' : watcher s' = watcher_after_select srv).
    { destruct src; repeat case_match; simplify_option_eq; done. }
    split; [done|]. split; [done|].
    intros src'. unfold step, watcher_wake. rewrite Hs'.
    unfold watcher_after_select. by destruct (sig_in_use srv).
  - intros Hp. by rewrite Hp in Hw.
  - intros Hns.
    destruct (watcher_finishes srv Close 5 sched s Hrun)
      as (sched' & s' & Hf & _ & Hr & Hd & _); [|done|eauto].
    destruct (watcher s); simpl; lia.
  - intros Hd. rewrite !(count_ev_teardown _ (log s)) by done.
    rewrite Hl, Hd. unfold teardown_upto. by destruct (sig_in_use srv).
Qed.

Lemma watcher_teardown_once_witness :
  ∃ s, Serve (test_server 50 false true true) Close_ok
         [ASignal; ACancelClose; AWake SrcCancel; AWatcher; AWatcher;
          AWatcher; AWatcher] = Some s
       ∧ count_ev EvListenerClose (log s) = 1%nat
       ∧ count_ev EvSignalStop (log s) = 1%nat.
Proof.
  destruct (Serve (test_server 50 false true true) Close_ok
         [ASignal; ACancelClose; AWake SrcCancel; AWatcher; AWatcher;
          AWatcher; AWatcher]) as [s|] eqn:E; [|discriminate E].
  exists s. split; [reflexivity|].
  pose proof (proj2 (proj2 (proj2 (proj2 (proj2 (watcher_teardown_once
    (test_server 50 false true true) Close_ok _ s E)))))) as H.
  assert (Hd : watcher s = WDone) by (by vm_compute in E; injection E as <-).
  destruct (H Hd) as (H1 & _ & H3 & _). auto.
Defined.

(** The claim C7 makes fails: nothing in [Serve] waits for the watcher.
    With no connection and no shutdown source firing, the serve loop
    ends, [Serve] closes [stopListener], drains and returns, and the
    watcher has not yet run: it is still at its [select]. *)
Lemma Serve_returns_before_watcher :
  (λ s, (main s, watcher s, count_ev EvListenerClose (log s)))
    <$> Serve (test_server 0 false true false) Close_ok
          [AServeReturn (Some "bind: address already in use"%string);
           ACloseStopListener; AStop; ADone]
  = Some (MReturned (Some "bind: address already in use"%string),
          WSelect, 0%nat).
Proof. reflexivity. Qed.

(** C7, amended: when [Serve] has returned, however the serve loop
    ended, [stopListener] is closed, so the watcher is not blocked: it
    has ended, or its next statement can run and brings it closer to its
    end, and at most five statements of its own take it there.  [Serve]
    does not wait for it. *)
Theorem Serve_returns_watcher_unblocked srv Close sched s err :
  Serve srv Close sched = Some s →
  main s = MReturned err →
  stopListener_closed s = true
  ∧ (watcher s = WDone
     ∨ ∃ s', step srv Close s (watcher_next (watcher s)) = Some s'
             ∧ (watcher_rank (watcher s') < watcher_rank (watcher s))%nat)
  ∧ ∃ sched' s',
      Forall (λ a, is_watcher_action a = true) sched'
      ∧ (length sched' ≤ 5)%nat
      ∧ run srv Close s sched' = Some s'
      ∧ watcher s' = WDone ∧ main s' = MReturned err.
Proof.
  intros Hrun Hm.
  pose proof (Serve_main_history _ _ _ _ Hrun) as Hh. rewrite Hm in Hh.
  destruct Hh as (_ & _ & Hstop).
  pose proof (Serve_watcher_inv _ _ _ _ Hrun) as Hinv.
  split; [done|]. split.
  - destruct (watcher_progress srv Close s Hinv (λ _, Hstop))
      as [Hd|(s' & H1 & Hlt & _)]; eauto.
  - destruct (watcher_finishes srv Close 5 sched s Hrun)
      as (sched' & s' & Hf & Hlen & Hr & Hd & Hm'); [|done|].
    + destruct (watcher s); simpl; lia.
    + exists sched', s'. rewrite Hm' , Hm. auto.
Qed.

Lemma Serve_returns_watcher_unblocked_witness :
  ∃ sched' s',
    Forall (λ a, is_watcher_action a = true) sched'
    ∧ (length sched' ≤ 5)%nat
    ∧ run (test_server 0 false true false) Close_ok
        (set_main (MReturned None)
           (set_trk TReturned
              (set_stopListener_closed
                 (Serve_init (test_server 0 false true false)))))
        sched' = Some s'
    ∧ watcher s' = WDone ∧ main s' = MReturned None.
Proof.
  refine (proj2 (proj2 (Serve_returns_watcher_unblocked
    (test_server 0 false true false) Close_ok
    [AServeReturn None; ACloseStopListener; AStop; ADone] _ None _ _)));
    reflexivity.
Defined.

(** C10: whichever case of its [select] wakes the watcher, it goes on to
    [signal.Stop(sig)] when a signal channel is in use, the default one
    or the caller's, and straight to the keep-alive switch otherwise;
    once past line 203 it has called [signal.Stop] and then [close(sig)],
    once each and in that order, and the channel is closed; having left
    its [select] it can always run on to that point.  [Cancel] is closed
    only by the caller: no step of the package changes it. *)
Theorem watcher_closes_Signal_not_Cancel srv Close sched s :
  Serve srv Close sched = Some s →
  (∀ src s', step srv Close s (AWake src) = Some s' →
     watcher s' = if sig_in_use srv then WSignalStop else WKeepAlives)
  ∧ (sig_in_use srv = true →
     watcher s = WKeepAlives ∨ watcher s = WListenerClose ∨ watcher s = WDone →
     filter is_sig_ev (log s) = [EvSignalStop; EvCloseSig]
     ∧ sig_closed s = true)
  ∧ (sig_in_use srv = true → watcher s ≠ WSelect →
     ∃ sched' s',
       Forall (λ a, is_watcher_action a = true) sched'
       ∧ run srv Close s sched' = Some s' ∧ watcher s' = WDone
       ∧ filter is_sig_ev (log s') = [EvSignalStop; EvCloseSig]
       ∧ sig_closed s' = true)
  ∧ (sig_in_use srv = false → filter is_sig_ev (log s) = [])
  ∧ (cancel_closed s = true → ACancelClose ∈ sched)
  ∧ (∀ a s', step srv Close s a = Some s' → a ≠ ACancelClose →
       cancel_closed s' = cancel_closed s).
Proof.
  intros Hrun.
  assert (Hpast : ∀ sched s, Serve srv Close sched = Some s →
    sig_in_use srv = true →
    watcher s = WKeepAlives ∨ watcher s = WListenerClose ∨ watcher s = WDone →
    filter is_sig_ev (log s) = [EvSignalStop; EvCloseSig]
    ∧ sig_closed s = true).
  { intros sched0 s0 Hrun0 Hsig Hpc.
    pose proof (Serve_watcher_inv _ _ _ _ Hrun0) as [Hl Hw].
    rewrite filter_sig_ev_teardown, Hl.
    unfold teardown_upto. rewrite Hsig.
    destruct Hpc as [Hpc|[Hpc|Hpc]]; rewrite Hpc in *;
      (split; [reflexivity|]); destruct Hw as [-> _]; done. }
  pose proof (Serve_watcher_inv _ _ _ _ Hrun) as [Hl Hw].
  split; [|split; [|split; [|split; [|split]]]].
  - intros src s' H. unfold step, watcher_wake, watcher_after_select in H.
    destruct (watcher s); try done.
    destruct (sig_in_use srv), src; repeat case_match;
      simplify_option_eq; done.
  - by apply (Hpast sched s).
  - intros Hsig Hns.
    destruct (watcher_finishes srv Close 5 sched s Hrun)
      as (sched' & s' & Hf & _ & Hr & Hd & _); [|done|].
    { destruct (watcher s); simpl; lia. }
    assert (Hrun' : Serve srv Close (sched ++ sched') = Some s').
    { unfold Serve in *. rewrite run_app, Hrun. exact Hr. }
    destruct (Hpast _ _ Hrun' Hsig) as [H1 H2]; [by auto|].
    exists sched', s'. auto.
  - intros Hsig. rewrite filter_sig_ev_teardown, Hl.
    unfold teardown_upto. rewrite Hsig.
    destruct (watcher s); try reflexivity.
    destruct Hw as [Hw _]. congruence.
  - revert Hrun. clear Hl Hw. revert sched s.
    apply (Serve_ind srv Close (λ sched s,
      cancel_closed s = true → ACancelClose ∈ sched)); [done|].
    intros sched s a s' _ IH H Hc.
    destruct a; step_inv H; simpl in *; set_solver.
  - intros a s' H Hne. destruct a; step_inv H; simpl in *; done.
Qed.

Lemma watcher_closes_Signal_not_Cancel_witness :
  ∃ s, Serve (test_server 50 false true true) Close_ok
         [ASignal; AWake SrcSig; AWatcher; AWatcher] = Some s
       ∧ filter is_sig_ev (log s) = [EvSignalStop; EvCloseSig]
       ∧ sig_closed s = true ∧ cancel_closed s = false.
Proof.
  destruct (Serve (test_server 50 false true true) Close_ok
         [ASignal; AWake SrcSig; AWatcher; AWatcher]) as [s|] eqn:E;
    [|discriminate E].
  exists s. split; [reflexivity|].
  pose proof (proj1 (proj2 (watcher_closes_Signal_not_Cancel
    (test_server 50 false true true) Close_ok _ s E)) eq_refl) as H.
  assert (Hd : watcher s = WKeepAlives ∧ cancel_closed s = false)
    by (by vm_compute in E; injection E as <-).
  destruct Hd as [Hd Hc]. destruct (H (or_introl Hd)) as [H1 H2]. auto.
Defined.

(** ** The [ConnState] hook *)

(** With the tracker in its [select] a call of the hook goes through:
    the forward is taken and then the observer gets the hook's own
    arguments, whatever the state. *)
Lemma hook_forwards_then_observes srv Close s i h v :
  hooks s !! i = Some h → hpc h = HSwitch → trk s = TSelect v →
  ∃ s1 s2,
    step srv Close s (AHookForward i) = Some s1
    ∧ trk s1 = match hook_forward (hconn h) (hstate h) with
               | Some m => (tracker_recv Close v m).1
               | None => TSelect v
               end
    ∧ log s1 = log s
    ∧ step srv Close s1 (AHookObserve i) = Some s2
    ∧ log s2 = log s ++ (if ConnState srv
                         then [EvObserver (hconn h) (hstate h)] else [])
    ∧ trk s2 = trk s1.
Proof.
  intros Hi Hpc Ht.
  assert (Hlt : (i < length (hooks s))%nat) by by eapply lookup_lt_Some.
  unfold step, hook_forward_step, hook_observe_step.
  rewrite Hi. simpl. rewrite Hpc, Ht.
  destruct (hook_forward (hconn h) (hstate h)) as [m|]; simpl;
    eexists _, _; (split; [reflexivity|]); simpl;
    rewrite list_lookup_insert_eq by done; simpl; done.
Qed.

Lemma withheld_step srv Close st s a s' :
  (∀ c, hook_forward c st ≠ None) →
  withheld st s → step srv Close s a = Some s' → withheld st s'.
Proof.
  intros Hst (Ht & Hh & Hl) H. unfold withheld.
  assert (Hobs : ∀ c st', st' ≠ st →
            filter (is_observer_of st) (log s ++ hook_observe srv c st') = []).
  { intros c st' Hne. rewrite filter_app, Hl. unfold hook_observe.
    destruct (ConnState srv); [|done].
    rewrite filter_cons_False; [done|]. simpl.
    intros Hb. by apply bool_decide_unpack in Hb. }
  assert (Hnone : ∀ c st', hook_forward c st' = None → st' ≠ st).
  { intros c st' Hn ->. by eapply Hst. }
  destruct a; step_inv H; simpl in *; try congruence;
    try (split; [done|split; [done|]]);
    rewrite ?filter_app, ?Hl; try done.
  - split; [done|]. split; [|done]. apply Forall_app. split; [done|].
    by constructor.
  - split; [done|]. split; [|done]. apply Forall_insert; [done|]. simpl.
    intros <-. exfalso. by apply (Hst 0%nat).
  - split; [done|]. split; [|done]. apply Forall_insert; [done|]. simpl.
    intros <-. exfalso. by apply (Hst 0%nat).
  - assert (hstate H0 ≠ st).
    { intros He. pose proof (Forall_lookup_1 _ _ _ _ Hh Heqo He). congruence. }
    split; [done|]. split; [by apply Forall_insert|].
    rewrite <- Hl at 1. by rewrite <- filter_app, Hobs.
Qed.

(** A call of the hook keeps its place and its arguments. *)
Lemma hook_call_stable srv Close s a s' i h :
  step srv Close s a = Some s' → hooks s !! i = Some h →
  ∃ h', hooks s' !! i = Some h'
        ∧ hconn h' = hconn h ∧ hstate h' = hstate h.
Proof.
  intros H Hi.
  assert (Hins : ∀ j h0 h1, hooks s !! j = Some h0 →
    hconn h1 = hconn h0 → hstate h1 = hstate h0 →
    ∃ h', <[j:=h1]> (hooks s) !! i = Some h'
          ∧ hconn h' = hconn h ∧ hstate h' = hstate h).
  { intros j h0 h1 Hj Hc Hs. destruct (decide (j = i)) as [->|Hne].
    - rewrite list_lookup_insert_eq by by eapply lookup_lt_Some.
      simplify_eq. eauto.
    - rewrite list_lookup_insert_ne by done. eauto. }
  destruct a; step_inv H; simpl; eauto.
  rewrite lookup_app_l by by eapply lookup_lt_Some. eauto.
Qed.

(** C6, at the failing input: after the timeout's [Kill] the tracker has
    returned; the engine's [StateClosed] for the killed connection enters
    the hook, whose [remove <- conn] has no receiver any more.  [Serve]
    has returned, the observer has seen [StateNew] and [StateActive] for
    the connection, and along every continuation that call of the hook
    stays at its send and the observer is never called with
    [StateClosed]. *)
Theorem hook_blocked_after_Kill :
  ∃ s0,
    Serve (test_server 50 true true false) Close_ok kill_schedule = Some s0
    ∧ main s0 = MReturned (Some "accept: use of closed network connection"%string)
    ∧ trk s0 = TReturned
    ∧ log s0 = [EvObserver 1%nat StateNew; EvObserver 1%nat StateActive;
                EvSignalStop; EvCloseSig; EvKeepAlivesOff; EvListenerClose;
                EvConnClose 1%nat None]
    ∧ hooks s0 !! 2%nat
      = Some {| hconn := 1%nat; hstate := StateClosed; hpc := HSwitch |}
    ∧ step (test_server 50 true true false) Close_ok s0 (AHookForward 2) = None
    ∧ ∀ sched s',
        run (test_server 50 true true false) Close_ok s0 sched = Some s' →
        hooks s' !! 2%nat
        = Some {| hconn := 1%nat; hstate := StateClosed; hpc := HSwitch |}
        ∧ filter (is_observer_of StateClosed) (log s') = [].
Proof.
  destruct (Serve (test_server 50 true true false) Close_ok kill_schedule)
    as [s0|] eqn:E; [|discriminate E].
  exists s0. split; [reflexivity|].
  vm_compute in E. injection E as <-.
  split; [reflexivity|]. split; [reflexivity|]. split; [reflexivity|].
  split; [reflexivity|]. split; [reflexivity|].
  intros sched s' Hr.
  match type of Hr with run ?srv ?Close ?s0 _ = _ =>
    assert (Hinv : withheld StateClosed s'
              ∧ ∃ h', hooks s' !! 2%nat = Some h'
                      ∧ hconn h' = 1%nat ∧ hstate h' = StateClosed);
    [eapply (run_invariant srv Close (λ s,
        withheld StateClosed s
        ∧ ∃ h', hooks s !! 2%nat = Some h'
                ∧ hconn h' = 1%nat ∧ hstate h' = StateClosed));
       [| |exact Hr]|]
  end.
  - intros s a s1 [Hw (h' & Hh' & Hc & Hs)] H. split.
    + eapply withheld_step; [|exact Hw|exact H]. done.
    + destruct (hook_call_stable _ _ _ _ _ _ _ H Hh') as (h1 & Hh1 & Hc1 & Hs1).
      exists h1. split; [done|]. split; congruence.
  - split.
    + split; [reflexivity|]. split; [|reflexivity].
      repeat constructor; simpl; discriminate.
    + eexists. split; [reflexivity|]. done.
  - destruct Hinv as [(Ht & Hf & Hl) (h' & Hh' & Hc & Hs)].
    split; [|done]. rewrite Hh'. f_equal.
    pose proof (Forall_lookup_1 _ _ _ _ Hf Hh' Hs) as Hpc.
    destruct h'; simpl in *; congruence.
Qed.

(** ** [ListenAndServeTLS] *)

(** C8: when the key pair does not load, [ListenAndServeTLS] returns that
    error having called nothing but the loader: no [net.Listen], no
    [Serve].  The configuration it builds is a copy whose [NextProtos],
    when nil, is ["http/1.1"]; when the load and the listen succeed the
    calls are, in order, the load, [net.Listen] and [Serve], and the
    listener handed to [Serve] carries that configuration with the
    loaded certificate. *)
Theorem ListenAndServeTLS_load_failure
    (LoadX509KeyPair : string → string → Certificate * error)
    (Listen : string → string → error)
    (ServeCore : Server → Listener → error)
    (server : http_Server) (certFile keyFile : string) (timeout : Z) :
  (∀ e, (LoadX509KeyPair certFile keyFile).2 = Some e →
     ListenAndServeTLS LoadX509KeyPair Listen ServeCore
       server certFile keyFile timeout
     = (Some e, [CallLoadX509KeyPair certFile keyFile]))
  ∧ (match TLSConfig server with
     | Some c => NextProtos c = None
     | None => True
     end →
     NextProtos (tls_config_of server) = Some ["http/1.1"%string])
  ∧ (∀ c l, TLSConfig server = Some c → NextProtos c = Some l →
       tls_config_of server = c)
  ∧ (∀ cert addr,
       LoadX509KeyPair certFile keyFile = (cert, None) →
       addr = (if decide (Addr server = ""%string) then ":https"%string
               else Addr server) →
       Listen "tcp"%string addr = None →
       ∃ srv config,
         ListenAndServeTLS LoadX509KeyPair Listen ServeCore
           server certFile keyFile timeout
         = (ServeCore srv (TLSListener (NetListener "tcp" addr) config),
            [CallLoadX509KeyPair certFile keyFile; CallListen "tcp" addr;
             CallServe srv (TLSListener (NetListener "tcp" addr) config)])
         ∧ NextProtos config = NextProtos (tls_config_of server)
         ∧ Certificates config = [cert]
         ∧ ServerName config = ServerName (tls_config_of server)
         ∧ Timeout srv = timeout ∧ embedded srv = server).
Proof.
  split; [|split; [|split]].
  - intros e He. unfold ListenAndServeTLS.
    destruct (LoadX509KeyPair certFile keyFile) as [cert err].
    simpl in He. by rewrite He.
  - unfold tls_config_of. destruct (TLSConfig server) as [c|]; [|done].
    by intros ->.
  - intros c l Hc Hl. unfold tls_config_of. by rewrite Hc, Hl.
  - intros cert addr Hload -> Hlisten. unfold ListenAndServeTLS.
    rewrite Hload, Hlisten. eexists _, _. split; [reflexivity|]. done.
Qed.

Lemma ListenAndServeTLS_load_failure_witness :
  ListenAndServeTLS
    (λ _ _, (""%string, Some "open cert.pem: no such file or directory"%string))
    (λ _ _, None) (λ _ _, None) http_3000 "cert.pem" "key.pem" 50
  = (Some "open cert.pem: no such file or directory"%string,
     [CallLoadX509KeyPair "cert.pem" "key.pem"]).
Proof.
  refine (proj1 (ListenAndServeTLS_load_failure
    (λ _ _, (""%string, Some "open cert.pem: no such file or directory"%string))
    (λ _ _, None) (λ _ _, None) http_3000 "cert.pem" "key.pem" 50) _ _).
  reflexivity.
Defined.

(** ** The race between the last [Untrack] and [Kill] *)

(** Both sends of the drain handshake are blocking.  When the timer has
    fired and the tracker takes the last [Untrack] before it takes
    [Kill], the tracker is at [done <- struct{}{}] and [Serve] at
    [kill <- struct{}{}]: neither send has a receiver, and along every
    continuation both stay where they are, so [Serve] does not return. *)
Lemma Serve_kill_race_blocks :
  ∃ s0,
    Serve (test_server 50 false true false) Close_ok race_schedule = Some s0
    ∧ main s0 = MSendKill None ∧ trk s0 = TSignal main_done
    ∧ ∀ sched s',
        run (test_server 50 false true false) Close_ok s0 sched = Some s' →
        main s' = MSendKill None ∧ trk s' = TSignal main_done.
Proof.
  destruct (Serve (test_server 50 false true false) Close_ok race_schedule)
    as [s0|] eqn:E; [|discriminate E].
  exists s0. split; [reflexivity|].
  vm_compute in E. injection E as <-.
  split; [reflexivity|]. split; [reflexivity|].
  intros sched s' Hr.
  eapply (run_invariant _ _ (λ s,
    main s = MSendKill None ∧ trk s = TSignal main_done)); [| |exact Hr].
  - intros s a s1 [Hm Ht] H.
    destruct a; step_inv H; simpl in *; split; congruence.
  - split; reflexivity.
Qed.
